(** * EC2-VAE lab notebook: the piano-roll / chord / note codec

    A shallow embedding of the conversion code of [main.ipynb]:
    [note_array_to_onehot] (cell 11) and [generate_midi_with_melody_chord]
    (cell 34), together with the two decoders the notebook calls on the
    model class ([note_array_to_notes], [chord_to_notes]), whose bodies live
    in the [ec2vae] package and are modelled after the written design.
    What numpy does to an index and what [midi.write] answers are outside
    the notebook: the first is written out, the second is a parameter. *)

From Stdlib Require Import ZArith QArith Lia.
From stdpp Require Import base list sorting strings.

Local Open Scope Z_scope.

(** ** Errors and results *)

(** [IndexError] is what numpy raises; [InvalidToken] and [ShapeMismatch]
    are the error names the design document uses for the decoders. *)
Inductive error : Type :=
  | IndexError
  | InvalidToken
  | ShapeMismatch.

Inductive result (A : Type) : Type :=
  | Ok (a : A)
  | Err (e : error).
Arguments Ok {A} a.
Arguments Err {A} e.

Definition rbind {A B : Type} (r : result A) (k : A → result B) : result B :=
  match r with
  | Ok a => k a
  | Err e => Err e
  end.

Notation "x ←r c ; k" := (rbind c (λ x, k))
  (at level 20, c at level 100, k at level 200, right associativity,
   format "x  ←r  c ;  '/' k").

(** Left-to-right traversal that stops at the first failure. *)
Fixpoint rmapM {A B : Type} (f : A → result B) (l : list A) : result (list B) :=
  match l with
  | [] => Ok []
  | a :: l' => b ←r f a; bs ←r rmapM f l'; Ok (b :: bs)
  end.

(** ** numpy pieces used by [note_array_to_onehot] *)

(** A 2-d float array whose entries are only ever [0.] or [1.]; both are
    exact, so an entry is kept as the integer it denotes. *)
Abbreviation matrix := (list (list Z)).

(** [np.zeros((rows, cols))]. *)
Definition np_zeros (rows cols : nat) : matrix :=
  replicate rows (replicate cols 0).

(** numpy's treatment of one integer index along an axis of length [size]:
    an index in [-size, size) is accepted, a negative one counting from the
    end; anything else raises [IndexError]. *)
Definition normalize_index (size : Z) (i : Z) : result nat :=
  if (i <? - size) || (size <=? i) then Err IndexError
  else Ok (Z.to_nat (if i <? 0 then i + size else i)).

(** [pr[k, j] = v] for in-range [k], [j]. *)
Definition setitem2 (pr : matrix) (k j : nat) (v : Z) : matrix :=
  alter (λ row, <[j := v]> row) k pr.

(** [pr[rows, cols] = v] with two index arrays of equal length: the pairs
    are visited in order. *)
Definition fancy_assign (pr : matrix) (rows cols : list nat) (v : Z) : matrix :=
  foldl (λ m kj, setitem2 m kj.1 kj.2 v) pr (zip rows cols).

(** [np.arange(0, n)]. *)
Definition np_arange (n : nat) : list nat := seq 0 n.

(** [a.astype(int)] on an array of a fixed-width integer dtype: numpy
    converts every element to a signed 64-bit integer.  An element that
    fits is kept as it is; an element of the upper half of [uint64] keeps
    its 64 bits and so comes out negative ([2^64 - 1] becomes [-1]). *)
Definition astype_int (v : Z) : Z := (v + 2 ^ 63) mod 2 ^ 64 - 2 ^ 63.

(** A value that a signed 64-bit integer holds. *)
Definition int64_value (v : Z) : Prop := - 2 ^ 63 ≤ v < 2 ^ 63.

#[global] Instance int64_value_dec (v : Z) : Decision (int64_value v).
Proof. unfold int64_value. apply _. Defined.

(** ** Cell 11: [note_array_to_onehot]

<<
def note_array_to_onehot(note_array):
    pr = np.zeros((len(note_array), 130))
    pr[np.arange(0, len(note_array)), note_array.astype(int)] = 1.
    return pr
>>

    The argument is a 1-d array of a fixed-width integer dtype, given by
    the values of its elements; the arrays of the notebook are [int64].
    numpy validates every index of the index arrays before it writes
    anything, so an offending token makes the whole call raise and no
    array is returned. *)
Definition note_array_to_onehot (note_array : list Z) : result matrix :=
  let pr := np_zeros (length note_array) 130 in
  let index := map astype_int note_array in
  cols ←r rmapM (normalize_index 130) index;
  Ok (fancy_assign pr (np_arange (length note_array)) cols 1).

(** The melodies of cell 9. *)
Definition x1 : list Z :=
  [64; 128; 128; 67; 67; 128; 128; 128; 64; 128; 128; 62; 60; 128; 128; 128;
   62; 128; 128; 64; 67; 128; 128; 64; 62; 128; 128; 128; 129; 129; 129; 129].

Definition x2 : list Z := replicate 32 60.

(** The column of a 130-wide row that numpy resolves an accepted index to. *)
Definition wrapped_column (t : Z) : nat :=
  Z.to_nat (if t <? 0 then t + 130 else t).

(** A token of the melody alphabet. *)
Definition valid_token (t : Z) : Prop := 0 ≤ t ≤ 129.

(** The one-hot row with its single [1] in column [j]. *)
Definition onehot_row (j : nat) : list Z := <[j := 1]> (replicate 130 0).

(** ** The reverse direction, PianoRoll to NoteArray *)

(** [np.argmax] of a 1-d array: the index of the first occurrence of the
    largest entry.  [best] is the largest entry seen so far, found at
    [besti]; [i] is the index of the head of [row]. *)
Fixpoint argmax_from (best : Z) (besti i : nat) (row : list Z) : nat :=
  match row with
  | [] => besti
  | v :: row' =>
      if best <? v then argmax_from v i (S i) row'
      else argmax_from best besti (S i) row'
  end.

Definition argmax (row : list Z) : nat :=
  match row with
  | [] => 0%nat
  | v :: row' => argmax_from v 0 1 row'
  end.

(** Modelled from the spec: the notebook defines no PianoRoll-to-NoteArray
    function; the design names it as the inverse of [note_array_to_onehot]
    and describes it as the per-row argmax, the index of the 1 of each
    row. *)
Definition onehot_to_note_array (pr : matrix) : list Z :=
  map (λ row, Z.of_nat (argmax row)) pr.

(** A well-formed NoteArray and a well-formed PianoRoll. *)
Definition valid_note_array (x : list Z) : Prop :=
  length x = 32%nat ∧ Forall valid_token x.

Definition onehot_matrix (pr : matrix) : Prop :=
  length pr = 32%nat ∧ Forall (λ row, ∃ j, (j < 130)%nat ∧ row = onehot_row j) pr.

(** ** Note events *)

(** What a token means at one time step. *)
Inductive category : Type :=
  | Onset (p : Z)
  | Hold
  | Rest.

Definition classify (t : Z) : result category :=
  if (0 <=? t) && (t <=? 127) then Ok (Onset t)
  else if t =? 128 then Ok Hold
  else if t =? 129 then Ok Rest
  else Err InvalidToken.

(** A closed run: a pitch sounding from step [run_start] up to the step
    boundary [run_end]. *)
Record Run : Type := mkRun { run_pitch : Z; run_start : nat; run_end : nat }.

(** A note event in seconds, the triple handed to the MIDI writer. *)
Record NoteEvent : Type :=
  mkNote { pitch : Z; start_time : Q; end_time : Q }.

(** One 16th note at the given tempo, and the time of a step boundary. *)
Definition step_duration (bpm : Q) : Q := (60 / bpm / 4)%Q.

Definition time_at (bpm start : Q) (i : nat) : Q :=
  (start + inject_Z (Z.of_nat i) * step_duration bpm)%Q.

Definition to_note (bpm start : Q) (r : Run) : NoteEvent :=
  {| pitch := run_pitch r;
     start_time := time_at bpm start (run_start r);
     end_time := time_at bpm start (run_end r) |}.

(** Closing the active pitch, if there is one, at step boundary [i]. *)
Definition close (active : option (Z * nat)) (i : nat) : list Run :=
  match active with
  | Some (p, s) => [mkRun p s i]
  | None => []
  end.

(** Modelled from the spec: the left-to-right scan of the
    note-array-to-notes decoder, whose body is in [ec2vae.model] and not in
    the notebook.  [i] is the current step, [active] the current active
    pitch with its run start.  An onset closes the active pitch and opens a
    new run; a hold extends the active run and does nothing when no pitch
    is active; a rest closes the active pitch; the end of the sequence
    closes a pitch that is still active. *)
Fixpoint scan (i : nat) (active : option (Z * nat)) (cats : list category)
  : list Run :=
  match cats with
  | [] => close active i
  | Onset p :: cats' => close active i ++ scan (S i) (Some (p, i)) cats'
  | Hold :: cats' => scan (S i) active cats'
  | Rest :: cats' => close active i ++ scan (S i) None cats'
  end.

(** The runs of a token sequence of any length. *)
Definition decode_runs (note_array : list Z) : result (list Run) :=
  cats ←r rmapM classify note_array;
  Ok (scan 0 None cats).

(** Modelled from the spec: [EC2VAE.note_array_to_notes(note_array, bpm,
    start)], called in cell 30 and defined in [ec2vae.model].  A sequence
    whose length is not 32 is a [ShapeMismatch]; the design leaves a token
    outside [0,129] at this stage open, and it is taken as [InvalidToken]
    here.  Times are exact rationals. *)
Definition note_array_to_notes (note_array : list Z) (bpm start : Q)
  : result (list NoteEvent) :=
  if decide (length note_array = 32%nat) then
    runs ←r decode_runs note_array;
    Ok (map (to_note bpm start) runs)
  else Err ShapeMismatch.

(** Moving a run [k] steps later. *)
Definition shift_run (k : nat) (r : Run) : Run :=
  mkRun (run_pitch r) (k + run_start r) (k + run_end r).

(** The runs follow one another between the step boundaries [lo] and
    [hi]: each starts no earlier than the one before it ends, and each
    lasts at least one step. *)
Fixpoint chained (lo : nat) (rs : list Run) (hi : nat) : Prop :=
  match rs with
  | [] => (lo ≤ hi)%nat
  | r :: rs' =>
      (lo ≤ run_start r)%nat ∧ (run_start r < run_end r)%nat
      ∧ chained (run_end r) rs' hi
  end.

(** ** Chords *)

(** Cell 18. *)
Definition amin : list Z := [1; 0; 0; 0; 1; 0; 0; 0; 0; 1; 0; 0].
Definition gmaj : list Z := [0; 0; 1; 0; 0; 0; 0; 1; 0; 0; 0; 1].
Definition fmaj : list Z := [1; 0; 0; 0; 0; 1; 0; 0; 0; 1; 0; 0].
Definition emin : list Z := [0; 0; 0; 0; 1; 0; 0; 1; 0; 0; 0; 1].
Definition cmaj : list Z := [1; 0; 0; 0; 1; 0; 0; 1; 0; 0; 0; 0].
Definition cmin : list Z := [1; 0; 0; 1; 0; 0; 0; 1; 0; 0; 0; 0].

(** Cell 19. *)
Definition c1 : matrix := replicate 16 cmaj ++ replicate 16 gmaj.
Definition c2 : matrix :=
  replicate 8 amin ++ replicate 8 gmaj ++ replicate 8 fmaj ++ replicate 8 emin.
Definition c3 : matrix := np_zeros 32 12.

(** Pitch class [c] sounds in a chroma row. *)
Definition class_active (c : nat) (row : list Z) : bool :=
  match row !! c with
  | Some v => v =? 1
  | None => false
  end.

(** The token stream of one pitch class: an active step is an onset when
    the class was silent on the step before and a hold otherwise, an
    inactive step is a rest.  [prev] tells whether the class was active on
    the previous step. *)
Fixpoint class_categories (p : Z) (c : nat) (prev : bool) (chroma : matrix)
  : list category :=
  match chroma with
  | [] => []
  | row :: chroma' =>
      let a := class_active c row in
      (if a then (if prev then Hold else Onset p) else Rest)
        :: class_categories p c a chroma'
  end.

(** Order of the output: by start time, then by pitch. *)
Definition note_leb (a b : NoteEvent) : bool :=
  if Qeq_bool (start_time a) (start_time b) then pitch a <=? pitch b
  else Qle_bool (start_time a) (start_time b).

(** A strict comparison of rationals as a boolean. *)
Definition Qlt_bool (x y : Q) : bool := negb (Qle_bool y x).

(** The event sounds pitch [p] at some moment of the half-open time span
    between the step boundaries [a] and [b]. *)
Definition sounds_in (bpm start : Q) (p : Z) (a b : nat) (e : NoteEvent) : bool :=
  (pitch e =? p)
  && Qlt_bool (start_time e) (time_at bpm start b)
  && Qlt_bool (time_at bpm start a) (end_time e).

Section chord.

(** The MIDI pitch of pitch class 0.  The design leaves the octave open
    and gives 48 as its example. *)
Variable anchor : Z.

(** The runs of one pitch class: the melody scan over its token stream. *)
Definition class_runs (c : nat) (chroma : matrix) : list Run :=
  scan 0 None (class_categories (anchor + Z.of_nat c) c false chroma).

(** Modelled from the spec: [EC2VAE.chord_to_notes(chroma, bpm, start)],
    called in cell 32 and defined in [ec2vae.model].  Each of the twelve
    pitch classes is merged into runs on its own; the events of all
    classes are put together and sorted by start time, then pitch.  A
    chroma that is not 32 x 12 is a [ShapeMismatch]. *)
Definition chord_to_notes (chroma : matrix) (bpm start : Q)
  : result (list NoteEvent) :=
  if decide (length chroma = 32%nat
             ∧ Forall (λ row, length row = 12%nat) chroma) then
    Ok (merge_sort (λ a b, Is_true (note_leb a b))
          (flat_map (λ c, map (to_note bpm start) (class_runs c chroma))
                    (seq 0 12)))
  else Err ShapeMismatch.

End chord.

(** An event with its times brought to lowest terms, for display. *)
Definition note_view (e : NoteEvent) : Z * Q * Q :=
  (pitch e, Qred (start_time e), Qred (end_time e)).

(** ** Cell 34: [generate_midi_with_melody_chord]

<<
def generate_midi_with_melody_chord(fn, mel_notes, c_notes):
    midi = pm.PrettyMIDI()
    ins1 = pm.Instrument(0)
    ins1.notes = mel_notes
    ins2 = pm.Instrument(0)
    ins2.notes = c_notes
    midi.instruments.append(ins1)
    midi.instruments.append(ins2)
    midi.write(fn)
>>
*)

(** What one call of [midi.write(fn)] does is decided outside the notebook,
    by pretty_midi, mido and the operating system: the call writes the file
    and returns, or it raises (the directory of the path does not exist, a
    note is no MIDI data byte, ...) and has completed no write. *)
Inductive write_outcome : Type :=
  | Written
  | Raised.

Section midi.

(** [pretty_midi.Note]; the function never looks inside one. *)
Context {Note : Type}.

(** The parts of the [pretty_midi] objects the function touches. *)
Record Instrument : Type := mkInstrument { program : Z; notes : list Note }.

Record PrettyMIDI : Type := mkPrettyMIDI { instruments : list Instrument }.

(** [pm.PrettyMIDI()] and [pm.Instrument(program)]. *)
Definition pm_PrettyMIDI : PrettyMIDI := {| instruments := [] |}.

Definition pm_Instrument (prog : Z) : Instrument :=
  {| program := prog; notes := [] |}.

(** [ins.notes = ns] and [midi.instruments.append(ins)]. *)
Definition set_notes (ins : Instrument) (ns : list Note) : Instrument :=
  {| program := program ins; notes := ns |}.

Definition append_instrument (midi : PrettyMIDI) (ins : Instrument)
  : PrettyMIDI :=
  {| instruments := instruments midi ++ [ins] |}.

(** The answer of the library to a write call, for every object and
    path. *)
Variable lib_write : PrettyMIDI → string → write_outcome.

(** [midi.write(fn)]: [completed] lists the writes that have completed so
    far, oldest first, each with its path and the object written.  A call
    that raises adds none. *)
Definition midi_write (midi : PrettyMIDI) (fn : string)
    (completed : list (string * PrettyMIDI))
  : write_outcome * list (string * PrettyMIDI) :=
  match lib_write midi fn with
  | Written => (Written, completed ++ [(fn, midi)])
  | Raised => (Raised, completed)
  end.

(** The export returns when the write returns and raises when it
    raises. *)
Definition generate_midi_with_melody_chord
    (fn : string) (mel_notes c_notes : list Note)
    (completed : list (string * PrettyMIDI))
  : write_outcome * list (string * PrettyMIDI) :=
  let midi := pm_PrettyMIDI in
  let ins1 := pm_Instrument 0 in
  let ins1 := set_notes ins1 mel_notes in
  let ins2 := pm_Instrument 0 in
  let ins2 := set_notes ins2 c_notes in
  let midi := append_instrument midi ins1 in
  let midi := append_instrument midi ins2 in
  midi_write midi fn completed.

End midi.

Arguments Instrument : clear implicits.
Arguments PrettyMIDI : clear implicits.

(** ** Further vocabulary for the encoder *)

(** A token numpy accepts as a column index of a 130-wide row. *)
Definition indexable (t : Z) : Prop := -130 ≤ t ≤ 129.

(** Two tokens that name the same column. *)
Definition same_column (t t' : Z) : Prop := t mod 130 = t' mod 130.

(** ** Properties of [note_array_to_onehot] *)

Lemma rmapM_Ok_length {A B} (f : A → result B) l bs :
  rmapM f l = Ok bs → length bs = length l.
Proof.
  revert bs. induction l as [|a l IH]; intros bs; simpl.
  - by intros [= <-].
  - destruct (f a) as [b|e]; simpl; [|done].
    destruct (rmapM f l) as [bs'|e]; simpl; [|done].
    intros [= <-]. simpl. by rewrite (IH bs').
Qed.

Lemma rmapM_all_Ok {A B} (f : A → result B) (g : A → B) l :
  Forall (λ a, f a = Ok (g a)) l → rmapM f l = Ok (map g l).
Proof.
  induction 1 as [|a l Ha _ IH]; simpl; [done|].
  by rewrite Ha, IH.
Qed.

Lemma rmapM_Err {A B} (f : A → result B) l e :
  (∀ a e', f a = Err e' → e' = e) →
  Exists (λ a, f a = Err e) l → rmapM f l = Err e.
Proof.
  intros Hone. induction 1 as [a l Ha|a l _ IH]; simpl.
  - by rewrite Ha.
  - destruct (f a) as [b|e'] eqn:Hfa; simpl.
    + by rewrite IH.
    + by rewrite (Hone _ _ Hfa).
Qed.

(** The paired assignment over rows [|pre|, |pre|+|cols|) of a fresh block
    rewrites exactly those rows. *)
Lemma fancy_assign_fresh (z : list Z) (v : Z) (cols : list nat) (pre : matrix) :
  fancy_assign (pre ++ replicate (length cols) z)
               (seq (length pre) (length cols)) cols v
  = pre ++ map (λ j, <[j := v]> z) cols.
Proof.
  revert pre. induction cols as [|j cols IH]; intros pre; [done|].
  unfold fancy_assign in *. simpl.
  unfold setitem2 at 2. simpl.
  replace (length pre) with (length pre + 0)%nat at 1 by lia.
  rewrite alter_app_r. simpl.
  specialize (IH (pre ++ [<[j := v]> z])).
  rewrite length_app in IH. simpl in IH.
  replace (length pre + 1)%nat with (S (length pre)) in IH by lia.
  rewrite <- !app_assoc in IH. simpl in IH. exact IH.
Qed.

Lemma note_array_to_onehot_rows (note_array : list Z) (cols : list nat) :
  rmapM (normalize_index 130) (map astype_int note_array) = Ok cols →
  note_array_to_onehot note_array = Ok (map onehot_row cols).
Proof.
  intros Hcols. unfold note_array_to_onehot. rewrite Hcols. simpl.
  f_equal. unfold np_zeros, np_arange.
  rewrite <- (length_map astype_int note_array).
  rewrite <- (rmapM_Ok_length _ _ _ Hcols).
  exact (fancy_assign_fresh (replicate 130 0) 1 cols []).
Qed.

(** The cast keeps what fits. *)
Lemma astype_int_id (v : Z) : int64_value v → astype_int v = v.
Proof.
  unfold int64_value, astype_int.
  change (2 ^ 63) with 9223372036854775808.
  change (2 ^ 64) with 18446744073709551616.
  intros Hv. rewrite Z.mod_small; lia.
Qed.

Lemma astype_int_all_id (l : list Z) :
  Forall int64_value l → map astype_int l = l.
Proof.
  induction 1 as [|v l Hv _ IH]; [done|].
  simpl. by rewrite astype_int_id, IH.
Qed.

Lemma indexable_int64 (t : Z) : indexable t → int64_value t.
Proof.
  unfold indexable, int64_value.
  change (2 ^ 63) with 9223372036854775808. lia.
Qed.

Lemma indexable_all_int64 (l : list Z) :
  Forall indexable l → Forall int64_value l.
Proof.
  intros Hl. eapply Forall_impl; [exact Hl|apply indexable_int64].
Qed.

Lemma normalize_index_in_range (size i : Z) :
  - size ≤ i < size →
  normalize_index size i = Ok (Z.to_nat (if i <? 0 then i + size else i)).
Proof.
  intros Hi. unfold normalize_index.
  destruct (Z.ltb_spec i (- size)); [lia|].
  destruct (Z.leb_spec size i); [lia|]. done.
Qed.

Lemma normalize_index_out_of_range (size i : Z) :
  i < - size ∨ size ≤ i → normalize_index size i = Err IndexError.
Proof.
  intros Hi. unfold normalize_index.
  destruct (Z.ltb_spec i (- size)); [done|].
  destruct (Z.leb_spec size i); [done|lia].
Qed.

Lemma normalize_index_valid (t : Z) :
  valid_token t → normalize_index 130 t = Ok (Z.to_nat t).
Proof.
  unfold valid_token. intros Ht.
  rewrite normalize_index_in_range by lia.
  destruct (Z.ltb_spec t 0); [lia|done].
Qed.

Lemma onehot_row_length j : length (onehot_row j) = 130%nat.
Proof. unfold onehot_row. by rewrite length_insert, length_replicate. Qed.

Lemma onehot_row_lookup (j i : nat) :
  (j < 130)%nat → (i < 130)%nat →
  onehot_row j !! i = Some (if decide (i = j) then 1 else 0).
Proof.
  intros Hj Hi. unfold onehot_row. case_decide as Hij.
  - subst i. apply list_lookup_insert_eq. by rewrite length_replicate.
  - rewrite list_lookup_insert_ne by done. by apply lookup_replicate_2.
Qed.

Lemma filter_ones_zeros (n : nat) :
  filter (λ v : Z, v = 1) (replicate n 0) = [].
Proof.
  induction n as [|n IH]; [done|]. simpl.
  by rewrite filter_cons_False.
Qed.

Lemma filter_ones_insert (n j : nat) :
  (j < n)%nat →
  filter (λ v : Z, v = 1) (<[j := 1]> (replicate n 0)) = [1].
Proof.
  revert j. induction n as [|n IH]; intros j Hj; [lia|].
  destruct j as [|j]; simpl.
  - rewrite filter_cons_True by done. by rewrite filter_ones_zeros.
  - rewrite filter_cons_False by done. apply IH. lia.
Qed.

Lemma onehot_row_single_one j :
  (j < 130)%nat → length (filter (λ v : Z, v = 1) (onehot_row j)) = 1%nat.
Proof. intros Hj. unfold onehot_row. by rewrite filter_ones_insert. Qed.

Lemma valid_onehot (note_array : list Z) :
  Forall valid_token note_array →
  note_array_to_onehot note_array
  = Ok (map onehot_row (map Z.to_nat note_array)).
Proof.
  intros Hvalid. apply note_array_to_onehot_rows.
  rewrite astype_int_all_id.
  - apply rmapM_all_Ok. eapply Forall_impl; [exact Hvalid|].
    intros t Ht. by apply normalize_index_valid.
  - apply indexable_all_int64. eapply Forall_impl; [exact Hvalid|].
    unfold valid_token, indexable. lia.
Qed.

(** C1: for a NoteArray of length 32 with every token in [0,129],
    [note_array_to_onehot] returns a 32 x 130 matrix in which row [t] has a
    1 in column [NoteArray[t]] and 0 in every other column, so each row
    holds exactly one 1. *)
Theorem note_array_to_onehot_spec (note_array : list Z) :
  length note_array = 32%nat →
  Forall valid_token note_array →
  ∃ pr : matrix,
    note_array_to_onehot note_array = Ok pr
    ∧ length pr = 32%nat
    ∧ (∀ (t : nat) (row : list Z), pr !! t = Some row →
         length row = 130%nat
         ∧ length (filter (λ v : Z, v = 1) row) = 1%nat)
    ∧ (∀ (t : nat) (tok : Z), note_array !! t = Some tok →
         ∃ row : list Z, pr !! t = Some row
           ∧ ∀ j : nat, (j < 130)%nat →
               row !! j = Some (if decide (Z.of_nat j = tok) then 1 else 0)).
Proof.
  intros Hlen Hvalid. eexists. split; [by apply valid_onehot|].
  split; [by rewrite !length_map|]. split.
  - intros t row Hrow.
    rewrite !list_lookup_fmap in Hrow.
    destruct (note_array !! t) as [tok|] eqn:Htok; [|done].
    simpl in Hrow. injection Hrow as <-.
    assert (valid_token tok) as Htv.
    { eapply Forall_lookup_1; eauto. }
    split; [apply onehot_row_length|].
    apply onehot_row_single_one. unfold valid_token in Htv. lia.
  - intros t tok Htok. exists (onehot_row (Z.to_nat tok)).
    split; [by rewrite !list_lookup_fmap, Htok|].
    assert (valid_token tok) as Htv.
    { eapply Forall_lookup_1; eauto. }
    unfold valid_token in Htv.
    intros j Hj. rewrite onehot_row_lookup by lia.
    repeat case_decide; try done; lia.
Qed.

Lemma note_array_to_onehot_spec_witness :
  ∃ pr : matrix,
    note_array_to_onehot x1 = Ok pr
    ∧ length pr = 32%nat
    ∧ (∀ (t : nat) (row : list Z), pr !! t = Some row →
         length row = 130%nat
         ∧ length (filter (λ v : Z, v = 1) row) = 1%nat)
    ∧ (∀ (t : nat) (tok : Z), x1 !! t = Some tok →
         ∃ row : list Z, pr !! t = Some row
           ∧ ∀ j : nat, (j < 130)%nat →
               row !! j = Some (if decide (Z.of_nat j = tok) then 1 else 0)).
Proof.
  apply (note_array_to_onehot_spec x1).
  - reflexivity.
  - unfold x1, valid_token. repeat constructor; lia.
Defined.

(** *** The round trip *)

Lemma argmax_from_zeros (best : Z) (besti i n : nat) :
  0 ≤ best → argmax_from best besti i (replicate n 0) = besti.
Proof.
  intros Hbest. revert i. induction n as [|n IH]; intros i; [done|].
  simpl. destruct (Z.ltb_spec best 0); [lia|]. apply IH.
Qed.

Lemma argmax_from_onehot (besti i n j : nat) :
  (j < n)%nat →
  argmax_from 0 besti i (<[j := 1]> (replicate n 0)) = (i + j)%nat.
Proof.
  revert besti i j. induction n as [|n IH]; intros besti i j Hj; [lia|].
  destruct j as [|j]; simpl.
  - rewrite argmax_from_zeros by lia. lia.
  - rewrite IH by lia. lia.
Qed.

Lemma argmax_insert_one (n j : nat) :
  (j < n)%nat → argmax (<[j := 1]> (replicate n 0)) = j.
Proof.
  intros Hj. destruct n as [|n]; [lia|].
  destruct j as [|j]; simpl.
  - by rewrite argmax_from_zeros.
  - by rewrite argmax_from_onehot by lia.
Qed.

Lemma argmax_onehot_row (j : nat) : (j < 130)%nat → argmax (onehot_row j) = j.
Proof. apply argmax_insert_one. Qed.

Lemma onehot_to_note_array_rows (cols : list nat) :
  Forall (λ j, (j < 130)%nat) cols →
  onehot_to_note_array (map onehot_row cols) = map Z.of_nat cols.
Proof.
  unfold onehot_to_note_array.
  induction 1 as [|j cols Hj _ IH]; [done|].
  simpl. rewrite argmax_onehot_row by done. by rewrite IH.
Qed.

(** C2: converting a valid NoteArray to a PianoRoll and taking the per-row
    argmax gives the NoteArray back, the PianoRoll being a one-hot 32 x 130
    matrix; and every one-hot 32 x 130 matrix is the PianoRoll of the valid
    NoteArray its argmax reads off.  The two directions make the transform
    a bijection between valid NoteArrays and one-hot 32 x 130 matrices. *)
Theorem onehot_roundtrip_bijection :
  (∀ x : list Z, valid_note_array x →
     ∃ pr : matrix, note_array_to_onehot x = Ok pr
       ∧ onehot_matrix pr
       ∧ onehot_to_note_array pr = x)
  ∧ (∀ pr : matrix, onehot_matrix pr →
       valid_note_array (onehot_to_note_array pr)
       ∧ note_array_to_onehot (onehot_to_note_array pr) = Ok pr).
Proof.
  split.
  - intros x [Hlen Hvalid]. eexists. split; [by apply valid_onehot|].
    split; [split|].
    + by rewrite !length_map.
    + rewrite !Forall_fmap. eapply Forall_impl; [exact Hvalid|].
      intros t Ht. unfold compose. exists (Z.to_nat t).
      unfold valid_token in Ht. split; [lia|done].
    + rewrite onehot_to_note_array_rows.
      * rewrite <- list_fmap_compose. rewrite <- (list_fmap_id x) at 2.
        apply Forall_fmap_ext_1. eapply Forall_impl; [exact Hvalid|].
        intros t Ht. unfold valid_token in Ht. unfold compose. simpl. lia.
      * rewrite Forall_fmap. eapply Forall_impl; [exact Hvalid|].
        intros t Ht. unfold valid_token in Ht. unfold compose. lia.
  - intros pr [Hlen Hrows].
    assert (∃ cols, pr = map onehot_row cols
                    ∧ Forall (λ j, (j < 130)%nat) cols) as (cols & -> & Hcols).
    { clear Hlen. induction Hrows as [|row pr (j & Hj & ->) _ (cols & -> & Hc)].
      - by exists [].
      - exists (j :: cols). split; [done|]. by constructor. }
    rewrite onehot_to_note_array_rows by done.
    assert (Forall valid_token (map Z.of_nat cols)) as Hvalid.
    { rewrite Forall_fmap. eapply Forall_impl; [exact Hcols|].
      intros j Hj. unfold valid_token, compose. simpl in Hj. lia. }
    split; [split|].
    + rewrite length_map in *. done.
    + done.
    + rewrite valid_onehot by done. do 2 f_equal.
      rewrite <- list_fmap_compose. rewrite <- (list_fmap_id cols) at 2.
      apply list_fmap_ext. intros i j _. simpl. lia.
Qed.

Lemma x1_valid : valid_note_array x1.
Proof.
  split; [reflexivity|].
  unfold x1, valid_token. repeat constructor; lia.
Qed.

Lemma onehot_roundtrip_bijection_witness :
  ∃ pr : matrix, note_array_to_onehot x1 = Ok pr
    ∧ onehot_matrix pr
    ∧ onehot_to_note_array pr = x1.
Proof.
  exact (proj1 onehot_roundtrip_bijection x1 x1_valid).
Defined.

(** *** Tokens outside the alphabet, and other lengths *)

Lemma wrapped_column_mod (t : Z) :
  indexable t → wrapped_column t = Z.to_nat (t mod 130).
Proof.
  unfold indexable, wrapped_column. intros Ht. f_equal.
  destruct (Z.ltb_spec t 0); Z.div_mod_to_equations; lia.
Qed.

Lemma wrapped_column_lt (t : Z) : indexable t → (wrapped_column t < 130)%nat.
Proof.
  unfold indexable, wrapped_column. intros Ht.
  destruct (Z.ltb_spec t 0); lia.
Qed.

(** The two outcomes of the call, told by the tokens after the cast. *)
Lemma onehot_cast_ok (note_array : list Z) :
  Forall indexable (map astype_int note_array) →
  note_array_to_onehot note_array
  = Ok (map onehot_row (map wrapped_column (map astype_int note_array))).
Proof.
  intros Hin. apply note_array_to_onehot_rows.
  apply rmapM_all_Ok. eapply Forall_impl; [exact Hin|].
  intros t Ht. unfold indexable in Ht.
  by rewrite normalize_index_in_range by lia.
Qed.

Lemma onehot_cast_err (note_array : list Z) :
  Exists (λ t, ¬ indexable t) (map astype_int note_array) →
  note_array_to_onehot note_array = Err IndexError.
Proof.
  intros Hbad. unfold note_array_to_onehot.
  rewrite (rmapM_Err (normalize_index 130) _ IndexError); [done| |].
  - intros t e. unfold normalize_index. by case_match; intros [= <-].
  - eapply Exists_impl; [exact Hbad|].
    intros t Ht. simpl in Ht. apply normalize_index_out_of_range.
    unfold indexable in Ht. lia.
Qed.

Lemma indexable_onehot (note_array : list Z) :
  Forall (λ t, -130 ≤ t ≤ 129) note_array →
  note_array_to_onehot note_array
  = Ok (map onehot_row (map wrapped_column note_array)).
Proof.
  intros Hin.
  rewrite <- (astype_int_all_id note_array) at 2
    by (by apply indexable_all_int64).
  apply onehot_cast_ok.
  by rewrite astype_int_all_id by (by apply indexable_all_int64).
Qed.

(** The cast at work: the top [uint64] value is encoded as [-1] is, in the
    column of the rest token. *)
Example uint64_top_wraps :
  note_array_to_onehot [2 ^ 64 - 1] = Ok [onehot_row 129]
  ∧ note_array_to_onehot [2 ^ 64 - 1] = note_array_to_onehot [-1].
Proof. split; vm_compute; reflexivity. Qed.

(** C3 fails as stated: the melody [x1] with its last token replaced by
    [-1], a token outside [0,129], is encoded without any error, and to the
    very PianoRoll of [x1] itself. *)
Lemma negative_token_accepted :
  Exists (λ t, ¬ valid_token t) (<[31%nat := -1]> x1)
  ∧ note_array_to_onehot (<[31%nat := -1]> x1)
    = Ok (map onehot_row (map Z.to_nat x1)).
Proof.
  split.
  - apply Exists_exists. exists (-1). split.
    + apply list_elem_of_lookup. by exists 31%nat.
    + unfold valid_token. lia.
  - vm_compute. reflexivity.
Qed.

(** C3, amended: for an array of signed 64-bit tokens, one token below
    -130 or above 129 makes [note_array_to_onehot] fail with numpy's
    out-of-range error, and no PianoRoll, partial or clamped, is returned;
    tokens in [-130,-1] are not rejected: when every token is in
    [-130,129] the call succeeds and row [k] is the one-hot row of column
    [token mod 130]. *)
Theorem int64_token_range_decides (note_array : list Z) :
  Forall int64_value note_array →
  (Exists (λ t, t < -130 ∨ 130 ≤ t) note_array →
   note_array_to_onehot note_array = Err IndexError)
  ∧ (Forall indexable note_array →
     ∃ pr : matrix,
       note_array_to_onehot note_array = Ok pr
       ∧ ∀ (k : nat) (t : Z), note_array !! k = Some t →
           pr !! k = Some (onehot_row (Z.to_nat (t mod 130)))).
Proof.
  intros H64. split.
  - intros Hbad. apply onehot_cast_err.
    rewrite astype_int_all_id by done.
    eapply Exists_impl; [exact Hbad|].
    intros t Ht. simpl in Ht. unfold indexable. lia.
  - intros Hin. eexists. split; [by apply indexable_onehot|].
    intros k t Hk. rewrite !list_lookup_fmap, Hk. simpl.
    rewrite wrapped_column_mod; [done|].
    by eapply Forall_lookup_1 in Hin.
Qed.

Lemma int64_token_range_decides_witness :
  note_array_to_onehot (<[0%nat := 130]> x1) = Err IndexError.
Proof.
  assert (Forall int64_value (<[0%nat := 130]> x1)) as H64.
  { apply (bool_decide_unpack _). vm_compute. exact I. }
  apply (proj1 (int64_token_range_decides (<[0%nat := 130]> x1) H64)).
  apply Exists_cons_hd. right. lia.
Defined.

(** C4 fails as stated: a sequence of length 1 is accepted and gives a
    1 x 130 matrix. *)
Lemma short_sequence_accepted :
  length [60] ≠ 32%nat
  ∧ note_array_to_onehot [60] = Ok [onehot_row 60].
Proof. split; [done|]. vm_compute. reflexivity. Qed.

(** C4, amended: [note_array_to_onehot] has no length check.  For a
    sequence of any length [n] with every token in [0,129] it returns the
    [n] x 130 matrix whose row [t] is the one-hot row of token [t]. *)
Theorem any_length_accepted (note_array : list Z) :
  Forall valid_token note_array →
  ∃ pr : matrix,
    note_array_to_onehot note_array = Ok pr
    ∧ length pr = length note_array
    ∧ ∀ (t : nat) (tok : Z), note_array !! t = Some tok →
        pr !! t = Some (onehot_row (Z.to_nat tok)).
Proof.
  intros Hvalid. eexists. split; [by apply valid_onehot|].
  split; [by rewrite !length_map|].
  intros t tok Htok. by rewrite !list_lookup_fmap, Htok.
Qed.

Lemma any_length_accepted_witness :
  ∃ pr : matrix,
    note_array_to_onehot [60; 128; 129] = Ok pr
    ∧ length pr = length [60; 128; 129]
    ∧ ∀ (t : nat) (tok : Z), [60; 128; 129] !! t = Some tok →
        pr !! t = Some (onehot_row (Z.to_nat tok)).
Proof.
  apply (any_length_accepted [60; 128; 129]).
  unfold valid_token. repeat constructor; lia.
Defined.

(** C10 fails as stated: [[-1; 130]] contains the token [-1] of [-130,-1],
    and the call fails all the same, on account of its other token. *)
Lemma negative_token_beside_bad_token :
  [-1; 130] !! 0%nat = Some (-1)
  ∧ -130 ≤ -1 ≤ -1
  ∧ note_array_to_onehot [-1; 130] = Err IndexError.
Proof. split; [done|]. split; [lia|]. vm_compute. reflexivity. Qed.

(** C10, amended: in a sequence whose tokens all lie in [-130,129], a
    negative token [t] in [-130,-1] does not make [note_array_to_onehot]
    fail: row [k] of the result is the one-hot row of column [130 + t], and
    the result is the very PianoRoll of the sequence with [130 + t] in
    place of [t], so that [-1] is encoded as the rest token 129 is. *)
Theorem negative_token_wraps (note_array : list Z) (k : nat) (t : Z) :
  Forall (λ t', -130 ≤ t' ≤ 129) note_array →
  note_array !! k = Some t →
  -130 ≤ t ≤ -1 →
  ∃ pr : matrix,
    note_array_to_onehot note_array = Ok pr
    ∧ pr !! k = Some (onehot_row (Z.to_nat (130 + t)))
    ∧ note_array_to_onehot (<[k := 130 + t]> note_array) = Ok pr.
Proof.
  intros Hin Hk Ht.
  assert (wrapped_column t = Z.to_nat (130 + t)) as Hcol.
  { unfold wrapped_column. destruct (Z.ltb_spec t 0); [f_equal; lia|lia]. }
  assert (wrapped_column (130 + t) = Z.to_nat (130 + t)) as Hcol'.
  { unfold wrapped_column. destruct (Z.ltb_spec (130 + t) 0); [lia|done]. }
  eexists. split; [by apply indexable_onehot|]. split.
  - by rewrite !list_lookup_fmap, Hk; simpl; rewrite Hcol.
  - rewrite indexable_onehot.
    + do 2 f_equal. rewrite list_fmap_insert, Hcol', <- Hcol.
      apply list_insert_id. by rewrite list_lookup_fmap, Hk.
    + apply Forall_insert; [done|lia].
Qed.

Lemma negative_token_wraps_witness :
  ∃ pr : matrix,
    note_array_to_onehot (<[31%nat := -1]> x1) = Ok pr
    ∧ pr !! 31%nat = Some (onehot_row (Z.to_nat (130 + -1)))
    ∧ note_array_to_onehot (<[31%nat := 130 + -1]> (<[31%nat := -1]> x1))
      = Ok pr.
Proof.
  apply (negative_token_wraps (<[31%nat := -1]> x1) 31 (-1)).
  - repeat constructor; lia.
  - reflexivity.
  - lia.
Defined.

(** ** Properties of the note-array-to-notes decoder *)

Lemma rmapM_app {A B} (f : A → result B) (l1 l2 : list A) bs1 bs2 :
  rmapM f l1 = Ok bs1 → rmapM f l2 = Ok bs2 →
  rmapM f (l1 ++ l2) = Ok (bs1 ++ bs2).
Proof.
  revert bs1. induction l1 as [|a l1 IH]; intros bs1; simpl.
  - by intros [= <-].
  - destruct (f a) as [b|e]; simpl; [|done].
    destruct (rmapM f l1) as [bs|e]; simpl; [|done].
    intros [= <-] H2. by rewrite (IH bs eq_refl H2).
Qed.

Lemma classify_valid (t : Z) : valid_token t → ∃ c, classify t = Ok c.
Proof.
  unfold valid_token, classify. intros Ht.
  destruct (Z.leb_spec 0 t); [|lia].
  destruct (Z.leb_spec t 127); simpl; [by eexists|].
  destruct (Z.eqb_spec t 128); [by eexists|].
  destruct (Z.eqb_spec t 129); [by eexists|lia].
Qed.

Lemma classify_all_valid (l : list Z) :
  Forall valid_token l →
  ∃ cats, rmapM classify l = Ok cats ∧ length cats = length l.
Proof.
  induction 1 as [|t l Ht _ (cats & Hcats & Hlen)]; [by exists []|].
  destruct (classify_valid t Ht) as [c Hc].
  exists (c :: cats). simpl. rewrite Hc, Hcats. simpl. by rewrite Hlen.
Qed.

Lemma scan_chained (cats : list category) :
  ∀ (i : nat) (active : option (Z * nat)) (lo : nat),
    match active with
    | Some (_, s) => (lo ≤ s < i)%nat
    | None => (lo ≤ i)%nat
    end →
    chained lo (scan i active cats) (i + length cats).
Proof.
  induction cats as [|c cats IH]; intros i active lo Hact.
  - destruct active as [[p s]|]; simpl; lia.
  - replace (i + length (c :: cats))%nat with (S i + length cats)%nat
      by (simpl; lia).
    destruct c as [q| |]; simpl.
    + destruct active as [[p s]|]; simpl.
      * repeat split; [lia..|]. apply IH. lia.
      * apply IH. lia.
    + apply IH. destruct active as [[p s]|]; lia.
    + destruct active as [[p s]|]; simpl.
      * repeat split; [lia..|]. apply IH. lia.
      * apply IH. lia.
Qed.

Lemma chained_bounds (rs : list Run) :
  ∀ lo hi, chained lo rs hi →
    (lo ≤ hi)%nat ∧ (length rs ≤ hi - lo)%nat
    ∧ ∀ r, r ∈ rs → (lo ≤ run_start r < run_end r)%nat ∧ (run_end r ≤ hi)%nat.
Proof.
  induction rs as [|r rs IH]; intros lo hi; simpl.
  - intros Hlo. split; [lia|]. split; [lia|]. by intros r ?%elem_of_nil.
  - intros (H1 & H2 & Hrest).
    destruct (IH _ _ Hrest) as (H3 & H4 & H5).
    split; [lia|]. split; [lia|].
    intros r' [->|Hr]%elem_of_cons; [lia|].
    destruct (H5 _ Hr). lia.
Qed.

Lemma chained_pairwise (rs : list Run) :
  ∀ lo hi, chained lo rs hi →
    ∀ (i j : nat) (r1 r2 : Run), (i < j)%nat →
      rs !! i = Some r1 → rs !! j = Some r2 →
      (run_end r1 ≤ run_start r2)%nat.
Proof.
  induction rs as [|r rs IH]; intros lo hi Hch i j r1 r2 Hij H1 H2; [done|].
  destruct Hch as (_ & _ & Hrest).
  destruct j as [|j]; [lia|]. simpl in H2.
  destruct i as [|i]; simpl in H1.
  - injection H1 as ->.
    destruct (chained_bounds _ _ _ Hrest) as (_ & _ & Hin).
    destruct (Hin r2); [|lia]. apply list_elem_of_lookup. by exists j.
  - eapply (IH _ _ Hrest i j); [lia|done..].
Qed.

(** *** Time is monotone in the step index *)

Lemma step_duration_pos (bpm : Q) : (0 < bpm)%Q → (0 < step_duration bpm)%Q.
Proof.
  intros Hbpm. unfold step_duration, Qdiv.
  repeat apply Qmult_lt_0_compat; [done|by apply Qinv_lt_0_compat|done].
Qed.

Lemma time_at_lt (bpm start : Q) (i j : nat) :
  (0 < bpm)%Q → (i < j)%nat →
  (time_at bpm start i < time_at bpm start j)%Q.
Proof.
  intros Hbpm Hij. unfold time_at.
  apply Qplus_lt_r, Qmult_lt_r; [by apply step_duration_pos|].
  rewrite <- Zlt_Qlt. lia.
Qed.

Lemma time_at_le (bpm start : Q) (i j : nat) :
  (0 < bpm)%Q → (i ≤ j)%nat →
  (time_at bpm start i <= time_at bpm start j)%Q.
Proof.
  intros Hbpm Hij. unfold time_at.
  apply Qplus_le_r, Qmult_le_r; [by apply step_duration_pos|].
  rewrite <- Zle_Qle. lia.
Qed.

(** C5 fails as stated: the example melody [x1] does not decode to 8
    events. *)
Lemma x1_not_eight_events :
  ¬ ∃ evs : list NoteEvent,
      note_array_to_notes x1 120 0 = Ok evs ∧ length evs = 8%nat.
Proof.
  intros (evs & Hevs & Hlen).
  assert (∃ evs', note_array_to_notes x1 120 0 = Ok evs'
                  ∧ length evs' = 11%nat) as (evs' & Hevs' & Hlen').
  { eexists. split; [reflexivity|]. reflexivity. }
  rewrite Hevs in Hevs'. injection Hevs' as <-. lia.
Qed.

(** C5, amended: at 120 bpm and start offset 0 the example melody [x1]
    decodes to exactly 11 events, one per onset token, the trailing rests
    giving none; the first has pitch 64, starts at 0 s and ends at 0.375 s
    (three steps of 0.125 s). *)
Theorem x1_decodes_to_eleven_events :
  ∃ (e : NoteEvent) (evs : list NoteEvent),
    note_array_to_notes x1 120 0 = Ok (e :: evs)
    ∧ length (e :: evs) = 11%nat
    ∧ pitch e = 64
    ∧ (start_time e == 0)%Q
    ∧ (end_time e == 3 # 8)%Q
    ∧ (step_duration 120 == 1 # 8)%Q
    ∧ map note_view (e :: evs)
      = [(64%Z, 0, 3 # 8); (67%Z, 3 # 8, 1 # 2); (67%Z, 1 # 2, 1); (64%Z, 1, 11 # 8);
         (62%Z, 11 # 8, 3 # 2); (60%Z, 3 # 2, 2); (62%Z, 2, 19 # 8);
         (64%Z, 19 # 8, 5 # 2); (67%Z, 5 # 2, 23 # 8); (64%Z, 23 # 8, 3);
         (62%Z, 3, 7 # 2)]%Q.
Proof.
  do 2 eexists. split; [reflexivity|].
  repeat split; vm_compute; reflexivity.
Qed.

(** C6: for a 32-step sequence of tokens in [0,129] (and a positive tempo)
    the decoder returns at most 32 events, each of positive duration, every
    event ending no later than any later event of the list starts, so that
    the events do not overlap and are listed in onset order; the all-rest
    input gives no event. *)
Theorem note_events_ordered (note_array : list Z) (bpm start : Q) :
  (0 < bpm)%Q →
  valid_note_array note_array →
  ∃ evs : list NoteEvent,
    note_array_to_notes note_array bpm start = Ok evs
    ∧ (length evs ≤ 32)%nat
    ∧ (∀ e, e ∈ evs → (start_time e < end_time e)%Q)
    ∧ (∀ (i j : nat) (e1 e2 : NoteEvent), (i < j)%nat →
         evs !! i = Some e1 → evs !! j = Some e2 →
         (end_time e1 <= start_time e2)%Q
         ∧ (start_time e1 < start_time e2)%Q)
    ∧ note_array_to_notes (replicate 32 129) bpm start = Ok [].
Proof.
  intros Hbpm [Hlen Hvalid].
  destruct (classify_all_valid _ Hvalid) as (cats & Hcats & Hclen).
  pose proof (scan_chained cats 0 None 0 (le_n 0)) as Hch.
  destruct (chained_bounds _ _ _ Hch) as (_ & Hcount & Hin).
  exists (map (to_note bpm start) (scan 0 None cats)). split.
  { unfold note_array_to_notes, decode_runs.
    rewrite decide_True by done. by rewrite Hcats. }
  split; [rewrite length_map; lia|]. split; [|split].
  - intros e (r & -> & Hr)%list_elem_of_fmap. simpl.
    apply time_at_lt; [done|]. destruct (Hin r Hr). lia.
  - intros i j e1 e2 Hij H1 H2.
    rewrite list_lookup_fmap in H1, H2.
    destruct (scan 0 None cats !! i) as [r1|] eqn:Hr1; [|done].
    destruct (scan 0 None cats !! j) as [r2|] eqn:Hr2; [|done].
    injection H1 as <-. injection H2 as <-. simpl.
    pose proof (chained_pairwise _ _ _ Hch i j r1 r2 Hij Hr1 Hr2) as Hle.
    split; [by apply time_at_le|].
    apply time_at_lt; [done|].
    destruct (Hin r1); [|lia]. apply list_elem_of_lookup. by exists i.
  - reflexivity.
Qed.

Lemma note_events_ordered_witness :
  ∃ evs : list NoteEvent,
    note_array_to_notes x1 120 0 = Ok evs
    ∧ (length evs ≤ 32)%nat
    ∧ (∀ e, e ∈ evs → (start_time e < end_time e)%Q)
    ∧ (∀ (i j : nat) (e1 e2 : NoteEvent), (i < j)%nat →
         evs !! i = Some e1 → evs !! j = Some e2 →
         (end_time e1 <= start_time e2)%Q
         ∧ (start_time e1 < start_time e2)%Q)
    ∧ note_array_to_notes (replicate 32 129) 120 0 = Ok [].
Proof.
  apply (note_events_ordered x1 120 0).
  - reflexivity.
  - exact x1_valid.
Defined.

(** *** Leading holds *)

Lemma classify_holds (k : nat) :
  rmapM classify (replicate k 128) = Ok (replicate k Hold).
Proof. induction k as [|k IH]; [done|]. simpl. by rewrite IH. Qed.

Lemma scan_holds (k : nat) (l : list category) :
  ∀ i active, scan i active (replicate k Hold ++ l) = scan (k + i) active l.
Proof.
  induction k as [|k IH]; intros i active; [done|].
  simpl. rewrite IH. f_equal. lia.
Qed.

Lemma scan_shift (k : nat) (l : list category) :
  ∀ i active,
    scan (k + i) (prod_map id (Nat.add k) <$> active) l
    = map (shift_run k) (scan i active l).
Proof.
  assert (∀ i active,
            close (prod_map id (Nat.add k) <$> active) (k + i)
            = map (shift_run k) (close active i)) as Hclose.
  { by intros i [[p s]|]. }
  induction l as [|c l IH]; intros i active; simpl; [apply Hclose|].
  replace (S (k + i)) with (k + S i)%nat by lia.
  destruct c as [q| |].
  - rewrite map_app, <- Hclose. f_equal. apply (IH (S i) (Some (q, i))).
  - apply IH.
  - rewrite map_app, <- Hclose. f_equal. apply (IH (S i) None).
Qed.

(** C8: a 32-step sequence that begins with [k] hold tokens decodes
    without error, and its events are exactly those of the rest of the
    sequence decoded on its own, each moved [k] steps later: the leading
    holds are no-ops and give no event.  A sequence of holds alone gives
    none at all. *)
Theorem leading_holds_emit_nothing (k : nat) (tl : list Z) (bpm start : Q) :
  (1 ≤ k)%nat →
  valid_note_array (replicate k 128 ++ tl) →
  ∃ rs : list Run,
    decode_runs tl = Ok rs
    ∧ note_array_to_notes (replicate k 128 ++ tl) bpm start
      = Ok (map (to_note bpm start) (map (shift_run k) rs))
    ∧ Forall (λ r, (k ≤ run_start r)%nat) (map (shift_run k) rs)
    ∧ note_array_to_notes (replicate 32 128) bpm start = Ok [].
Proof.
  intros _ [Hlen Hvalid].
  apply Forall_app in Hvalid as [_ Hvalid].
  destruct (classify_all_valid _ Hvalid) as (cats & Hcats & _).
  exists (scan 0 None cats). split; [|split; [|split]].
  - unfold decode_runs. by rewrite Hcats.
  - unfold note_array_to_notes, decode_runs.
    rewrite decide_True by done.
    rewrite (rmapM_app _ _ _ _ _ (classify_holds k) Hcats). simpl.
    rewrite scan_holds. do 2 f_equal.
    apply (scan_shift k cats 0 None).
  - rewrite Forall_fmap. apply Forall_true. intros r. simpl. lia.
  - reflexivity.
Qed.

Lemma leading_holds_emit_nothing_witness :
  ∃ rs : list Run,
    decode_runs (drop 2 x1) = Ok rs
    ∧ note_array_to_notes (replicate 2 128 ++ drop 2 x1) 120 0
      = Ok (map (to_note 120 0) (map (shift_run 2) rs))
    ∧ Forall (λ r, (2 ≤ run_start r)%nat) (map (shift_run 2) rs)
    ∧ note_array_to_notes (replicate 32 128) 120 0 = Ok [].
Proof.
  apply (leading_holds_emit_nothing 2 (drop 2 x1) 120 0).
  - lia.
  - split; [reflexivity|].
    unfold valid_token. repeat constructor; lia.
Defined.

(** ** Properties of the chord-to-notes decoder *)

Lemma Qlt_bool_iff (x y : Q) : Qlt_bool x y = true ↔ (x < y)%Q.
Proof.
  unfold Qlt_bool. rewrite negb_true_iff, <- not_true_iff_false, Qle_bool_iff.
  split; [apply Qnot_le_lt|apply Qlt_not_le].
Qed.

Lemma filter_none {A} (P : A → Prop) `{∀ x, Decision (P x)} (l : list A) :
  Forall (λ x, ¬ P x) l → filter P l = [].
Proof.
  induction 1 as [|x l Hx _ IH]; [done|].
  by rewrite filter_cons_False.
Qed.

Lemma filter_flat_map {A B} (P : B → Prop) `{∀ x, Decision (P x)}
    (f : A → list B) (l : list A) :
  filter P (flat_map f l) = flat_map (λ a, filter P (f a)) l.
Proof.
  induction l as [|a l IH]; [done|].
  simpl. by rewrite filter_app, IH.
Qed.

Lemma flat_map_all_nil {A B} (g : A → list B) (l : list A) :
  (∀ a, a ∈ l → g a = []) → flat_map g l = [].
Proof.
  induction l as [|a l IH]; intros Hnil; [done|].
  simpl. rewrite Hnil by apply list_elem_of_here.
  apply IH. intros a' Ha'. apply Hnil. by apply list_elem_of_further.
Qed.

Lemma flat_map_only {A B} (g : A → list B) (l : list A) (a : A) :
  NoDup l → a ∈ l → (∀ a', a' ∈ l → a' ≠ a → g a' = []) →
  flat_map g l = g a.
Proof.
  induction 1 as [|a0 l Hnotin Hnd IH]; intros Hin Hothers.
  - by apply elem_of_nil in Hin.
  - simpl. apply elem_of_cons in Hin as [->|Hin].
    + rewrite flat_map_all_nil; [by rewrite app_nil_r|].
      intros a' Ha'. apply Hothers; [by apply list_elem_of_further|].
      by intros ->.
    + rewrite Hothers; [|apply list_elem_of_here|by intros ->].
      apply IH; [done|].
      intros a' Ha'. apply Hothers. by apply list_elem_of_further.
Qed.

Section class_runs.

Variables (p : Z) (c : nat).

Lemma class_categories_length (prev : bool) (chroma : matrix) :
  length (class_categories p c prev chroma) = length chroma.
Proof.
  revert prev. induction chroma as [|row chroma IH]; intros prev; [done|].
  simpl. by rewrite IH.
Qed.

(** Every run of the class carries the pitch of the class. *)
Lemma class_scan_pitch (chroma : matrix) :
  ∀ i s prev active, active = None ∨ active = Some (p, s) →
    Forall (λ r, run_pitch r = p)
           (scan i active (class_categories p c prev chroma)).
Proof.
  assert (∀ i s active, active = None ∨ active = Some (p, s) →
            Forall (λ r, run_pitch r = p) (close active i)) as Hclose.
  { intros i s active [->| ->]; simpl; by repeat constructor. }
  induction chroma as [|row chroma IH]; intros i s prev active Hact; simpl.
  - by apply (Hclose i s).
  - destruct (class_active c row); [destruct prev|].
    + by apply (IH _ s).
    + apply Forall_app. split; [by apply (Hclose i s)|].
      apply (IH _ i). by right.
    + apply Forall_app. split; [by apply (Hclose i s)|].
      apply (IH _ i). by left.
Qed.

(** After a stretch that ends on an inactive step nothing is active: the
    scan of what follows starts afresh. *)
Lemma class_scan_prefix (pre rest : matrix) :
  ∀ i active prev,
    (pre = [] → active = None ∧ prev = false) →
    (∀ row, last pre = Some row → class_active c row = false) →
    scan i active (class_categories p c prev (pre ++ rest))
    = scan i active (class_categories p c prev pre)
      ++ scan (i + length pre) None (class_categories p c false rest).
Proof.
  induction pre as [|row pre IH]; intros i active prev Hnil Hlast.
  - destruct Hnil as [-> ->]; [done|]. simpl. f_equal. lia.
  - simpl.
    replace (i + S (length pre))%nat with (S i + length pre)%nat by lia.
    assert (∀ row', last pre = Some row' → class_active c row' = false)
      as Hlast'.
    { intros row' Hrow'. apply Hlast. rewrite last_cons. by rewrite Hrow'. }
    destruct (class_active c row) eqn:Hrow.
    + assert (pre ≠ []) as Hne.
      { intros ->. specialize (Hlast row eq_refl). congruence. }
      destruct prev.
      * apply IH; [done|done].
      * rewrite <- app_assoc. f_equal. apply IH; [done|done].
    + rewrite <- app_assoc. f_equal. apply IH; [|done].
      by intros _.
Qed.

(** A stretch of active steps extends the active run, which is closed at
    the first inactive step or at the end. *)
Lemma class_scan_held (block post : matrix) :
  Forall (λ row, class_active c row = true) block →
  (∀ row, head post = Some row → class_active c row = false) →
  ∀ j s,
    scan j (Some (p, s)) (class_categories p c true (block ++ post))
    = mkRun p s (j + length block)
      :: scan (j + length block) None (class_categories p c false post).
Proof.
  intros Hblock Hpost.
  induction Hblock as [|row block Hrow _ IH]; intros j s; simpl.
  - rewrite Nat.add_0_r. destruct post as [|row post]; [done|].
    simpl. by rewrite (Hpost row eq_refl).
  - rewrite Hrow. rewrite IH. do 2 f_equal; lia.
Qed.

Lemma class_scan_block (block post : matrix) (i : nat) :
  block ≠ [] →
  Forall (λ row, class_active c row = true) block →
  (∀ row, head post = Some row → class_active c row = false) →
  scan i None (class_categories p c false (block ++ post))
  = mkRun p i (i + length block)
    :: scan (i + length block) None (class_categories p c false post).
Proof.
  intros Hne Hblock Hpost.
  destruct block as [|row block]; [done|].
  apply Forall_cons in Hblock as [Hrow Hblock].
  simpl. rewrite Hrow. simpl.
  rewrite class_scan_held by done. do 2 f_equal; lia.
Qed.

(** The runs of a class around a maximal block of active steps: the runs
    of what precedes, the one run of the block, the runs of what
    follows. *)
Lemma class_scan_around_block (pre block post : matrix) :
  block ≠ [] →
  Forall (λ row, class_active c row = true) block →
  (∀ row, last pre = Some row → class_active c row = false) →
  (∀ row, head post = Some row → class_active c row = false) →
  ∃ before after : list Run,
    scan 0 None (class_categories p c false (pre ++ block ++ post))
    = before
      ++ mkRun p (length pre) (length pre + length block) :: after
    ∧ Forall (λ r, (run_end r ≤ length pre)%nat) before
    ∧ Forall (λ r, (length pre + length block ≤ run_start r)%nat) after.
Proof.
  intros Hne Hblock Hpre Hpost.
  exists (scan 0 None (class_categories p c false pre)),
         (scan (length pre + length block) None
               (class_categories p c false post)).
  split; [|split].
  - rewrite class_scan_prefix by done. f_equal.
    by apply class_scan_block.
  - pose proof (scan_chained (class_categories p c false pre) 0 None 0
                  (le_n 0)) as Hch.
    apply chained_bounds in Hch as (_ & _ & Hin).
    rewrite class_categories_length in Hin.
    apply Forall_forall. intros r Hr. destruct (Hin r Hr). lia.
  - pose proof (scan_chained (class_categories p c false post)
                  (length pre + length block) None
                  (length pre + length block) (le_n _)) as Hch.
    apply chained_bounds in Hch as (_ & _ & Hin).
    apply Forall_forall. intros r Hr. destruct (Hin r Hr). lia.
Qed.

End class_runs.

(** C7: in a 32 x 12 chroma, a pitch class that is active on every step of
    a block, and inactive on the step before and on the step after it (if
    there are such steps), gives exactly one event of its pitch sounding
    within the block, and that event spans the whole block; the chroma of
    16 steps of [amin] then 16 steps of [gmaj], anchored at 48, decodes to
    the three notes of each chord, each over its full 16 steps. *)
Theorem chord_block_single_event :
  (∀ (anchor : Z) (bpm start : Q) (pre block post : matrix) (c : nat),
     (0 < bpm)%Q →
     length (pre ++ block ++ post) = 32%nat →
     Forall (λ row, length row = 12%nat) (pre ++ block ++ post) →
     block ≠ [] →
     Forall (λ row, class_active c row = true) block →
     (∀ row, last pre = Some row → class_active c row = false) →
     (∀ row, head post = Some row → class_active c row = false) →
     ∃ evs : list NoteEvent,
       chord_to_notes anchor (pre ++ block ++ post) bpm start = Ok evs
       ∧ filter (λ e, Is_true (sounds_in bpm start (anchor + Z.of_nat c)
                                 (length pre) (length pre + length block) e))
                evs
         = [mkNote (anchor + Z.of_nat c)
                   (time_at bpm start (length pre))
                   (time_at bpm start (length pre + length block))])
  ∧ (∃ evs : list NoteEvent,
       chord_to_notes 48 (replicate 16 amin ++ replicate 16 gmaj) 120 0
       = Ok evs
       ∧ map note_view evs
         = [(48%Z, 0, 2); (52%Z, 0, 2); (57%Z, 0, 2);
            (50%Z, 2, 4); (55%Z, 2, 4); (59%Z, 2, 4)]%Q).
Proof.
  split; [|eexists; split; [reflexivity|vm_compute; reflexivity]].
  intros anchor bpm start pre block post c Hbpm Hlen Hshape Hne Hblock
         Hpre Hpost.
  set (a := length pre). set (b := (length pre + length block)%nat).
  set (q := anchor + Z.of_nat c).
  assert (a < b)%nat as Hab.
  { subst a b. destruct block; [done|]. simpl. lia. }
  assert (c < 12)%nat as Hc.
  { destruct block as [|row block]; [done|].
    apply Forall_cons in Hblock as [Hrow _].
    apply Forall_app in Hshape as [_ Hshape].
    apply Forall_app in Hshape as [Hshape _].
    apply Forall_cons in Hshape as [Hrowlen _].
    unfold class_active in Hrow.
    destruct (row !! c) as [v|] eqn:Hv; [|done].
    apply lookup_lt_Some in Hv. lia. }
  eexists. split.
  { unfold chord_to_notes. rewrite decide_True by done. reflexivity. }
  apply Permutation_singleton_r.
  rewrite merge_sort_Permutation, filter_flat_map.
  rewrite (flat_map_only _ _ c); [|apply NoDup_seq|apply elem_of_seq; lia|].
  - destruct (class_scan_around_block q c pre block post Hne Hblock Hpre Hpost)
      as (before & after & Hruns & Hbefore & Hafter).
    unfold class_runs. fold q. rewrite Hruns.
    rewrite map_app, filter_app. simpl.
    rewrite filter_cons_True.
    2:{ pose proof (time_at_lt bpm start a b Hbpm Hab) as Hlt.
        apply Qlt_bool_iff in Hlt.
        unfold sounds_in. simpl. subst a b.
        by rewrite Z.eqb_refl, Hlt. }
    rewrite !filter_none; [done| |].
    + rewrite Forall_fmap. eapply Forall_impl; [exact Hafter|].
      intros r Hr. unfold compose, sounds_in. simpl.
      intros Hs. apply Is_true_true in Hs.
      apply andb_true_iff in Hs as [Hs _].
      apply andb_true_iff in Hs as [_ Hs].
      apply Qlt_bool_iff in Hs.
      apply (Qlt_not_le _ _ Hs). by apply time_at_le.
    + rewrite Forall_fmap. eapply Forall_impl; [exact Hbefore|].
      intros r Hr. unfold compose, sounds_in. simpl.
      intros Hs. apply Is_true_true in Hs.
      apply andb_true_iff in Hs as [_ Hs].
      apply Qlt_bool_iff in Hs.
      apply (Qlt_not_le _ _ Hs). by apply time_at_le.
  - intros c' _ Hc'. apply filter_none. rewrite Forall_fmap.
    eapply Forall_impl;
      [apply (class_scan_pitch (anchor + Z.of_nat c') c' _ 0%nat 0%nat false
                None); by left|].
    intros r Hr. unfold compose, sounds_in. simpl. rewrite Hr.
    intros Hs. apply Is_true_true in Hs.
    apply andb_true_iff in Hs as [Hs _].
    apply andb_true_iff in Hs as [Hs _].
    apply Z.eqb_eq in Hs. subst q. lia.
Qed.

Lemma chord_block_single_event_witness :
  ∃ evs : list NoteEvent,
    chord_to_notes 48 (replicate 16 cmaj ++ replicate 16 gmaj ++ []) 120 0
    = Ok evs
    ∧ filter (λ e, Is_true (sounds_in 120 0 (48 + Z.of_nat 2)
                              (length (replicate 16 cmaj))
                              (length (replicate 16 cmaj)
                               + length (replicate 16 gmaj)) e))
             evs
      = [mkNote (48 + Z.of_nat 2)
                (time_at 120 0 (length (replicate 16 cmaj)))
                (time_at 120 0 (length (replicate 16 cmaj)
                                + length (replicate 16 gmaj)))].
Proof.
  apply (proj1 chord_block_single_event 48 120%Q 0%Q
           (replicate 16 cmaj) (replicate 16 gmaj) [] 2%nat).
  - reflexivity.
  - reflexivity.
  - repeat constructor.
  - done.
  - repeat constructor.
  - intros row [= <-]. reflexivity.
  - intros row [=].
Defined.


(** ** Properties of the MIDI export *)


(** * Further properties of [note_array_to_onehot] *)

Lemma onehot_row_inj (j j' : nat) :
  (j < 130)%nat → (j' < 130)%nat → onehot_row j = onehot_row j' → j = j'.
Proof.
  intros Hj Hj' Heq.
  pose proof (onehot_row_lookup j j Hj Hj) as H1.
  rewrite Heq, onehot_row_lookup in H1 by done.
  rewrite (decide_True (P := j = j)) in H1 by done.
  destruct (decide (j = j')); [done|]. by injection H1.
Qed.

(** Every call either resolves all its tokens or stops on a token that,
    once cast, is no index of a 130-wide row. *)
Lemma onehot_dichotomy (note_array : list Z) :
  (Forall indexable (map astype_int note_array)
   ∧ note_array_to_onehot note_array
     = Ok (map onehot_row (map wrapped_column (map astype_int note_array))))
  ∨ (Exists (λ t, ¬ indexable t) (map astype_int note_array)
     ∧ note_array_to_onehot note_array = Err IndexError).
Proof.
  destruct (decide (Forall indexable (map astype_int note_array)))
    as [Hall|Hnot].
  - left. split; [done|]. by apply onehot_cast_ok.
  - right. apply not_Forall_Exists in Hnot; [|apply _]. split; [done|].
    by apply onehot_cast_err.
Qed.

Lemma onehot_Ok_inv (note_array : list Z) (pr : matrix) :
  note_array_to_onehot note_array = Ok pr →
  Forall indexable (map astype_int note_array)
  ∧ pr = map onehot_row (map wrapped_column (map astype_int note_array)).
Proof.
  intros Hpr. destruct (onehot_dichotomy note_array) as [[Hall Hok]|[_ Herr]].
  - split; [done|]. rewrite Hok in Hpr. by injection Hpr.
  - by rewrite Herr in Hpr.
Qed.

Lemma onehot_int64_dichotomy (note_array : list Z) :
  Forall int64_value note_array →
  (Forall indexable note_array
   ∧ note_array_to_onehot note_array
     = Ok (map onehot_row (map wrapped_column note_array)))
  ∨ (Exists (λ t, ¬ indexable t) note_array
     ∧ note_array_to_onehot note_array = Err IndexError).
Proof.
  intros H64. pose proof (onehot_dichotomy note_array) as Hd.
  by rewrite astype_int_all_id in Hd.
Qed.

(** X1: on an array of signed 64-bit tokens, a call of
    [note_array_to_onehot] succeeds exactly when every token lies in
    [-130,129]; it fails exactly when some token does not, and then the
    error is numpy's [IndexError] and no other. *)
Theorem onehot_succeeds_iff_indexable (note_array : list Z) :
  Forall int64_value note_array →
  (Forall indexable note_array
   ↔ ∃ pr : matrix, note_array_to_onehot note_array = Ok pr)
  ∧ (Exists (λ t, ¬ indexable t) note_array
     ↔ ∃ e : error, note_array_to_onehot note_array = Err e)
  ∧ (∀ e : error, note_array_to_onehot note_array = Err e → e = IndexError).
Proof.
  intros H64.
  destruct (onehot_int64_dichotomy note_array H64)
    as [[Hall Hok]|[Hbad Herr]].
  - split; [|split].
    + split; [by eexists|done].
    + split.
      * intros (t & Hin & Ht)%Exists_exists.
        destruct Ht. by eapply Forall_forall in Hall.
      * intros [e He]. by rewrite Hok in He.
    + intros e He. by rewrite Hok in He.
  - split; [|split].
    + split.
      * intros Hall. apply Exists_exists in Hbad as (t & Hin & Ht).
        destruct Ht. by eapply Forall_forall in Hall.
      * intros [pr Hpr]. by rewrite Herr in Hpr.
    + split; [by eexists|done].
    + intros e He. rewrite Herr in He. by injection He.
Qed.

Lemma onehot_succeeds_iff_indexable_witness :
  ∃ e : error, note_array_to_onehot [60; -131; 129; -1] = Err e.
Proof.
  assert (Forall int64_value [60; -131; 129; -1]) as H64.
  { apply (bool_decide_unpack _). vm_compute. exact I. }
  apply (proj1 (proj1 (proj2
           (onehot_succeeds_iff_indexable [60; -131; 129; -1] H64)))).
  apply Exists_cons_tl, Exists_cons_hd. unfold indexable. lia.
Defined.

(** X2: on an array of signed 64-bit tokens, of any length, a PianoRoll
    that [note_array_to_onehot] returns has one row per token, every row is
    130 wide with entries 0 or 1 and exactly one 1, and row [t] is the
    one-hot row of column [token mod 130]. *)
Theorem onehot_result_shape (note_array : list Z) (pr : matrix) :
  Forall int64_value note_array →
  note_array_to_onehot note_array = Ok pr →
  length pr = length note_array
  ∧ Forall (λ row, length row = 130%nat
                   ∧ length (filter (λ v : Z, v = 1) row) = 1%nat
                   ∧ Forall (λ v, v = 0 ∨ v = 1) row) pr
  ∧ ∀ (t : nat) (tok : Z), note_array !! t = Some tok →
      pr !! t = Some (onehot_row (Z.to_nat (tok mod 130))).
Proof.
  intros H64 [Hall ->]%onehot_Ok_inv.
  rewrite astype_int_all_id in * by done.
  split; [by rewrite !length_map|]. split.
  - rewrite !Forall_fmap. eapply Forall_impl; [exact Hall|].
    intros tok Htok. unfold compose.
    pose proof (wrapped_column_lt tok Htok) as Hlt.
    split; [apply onehot_row_length|].
    split; [by apply onehot_row_single_one|].
    apply Forall_lookup. intros i v Hv.
    assert (i < 130)%nat as Hi.
    { apply lookup_lt_Some in Hv. by rewrite onehot_row_length in Hv. }
    rewrite onehot_row_lookup in Hv by done.
    injection Hv as <-. case_decide; auto.
  - intros t tok Htok. rewrite !list_lookup_fmap, Htok. simpl.
    rewrite wrapped_column_mod; [done|].
    by eapply Forall_lookup_1 in Hall.
Qed.

Lemma onehot_result_shape_witness :
  length (map onehot_row [60; 129; 0]%nat) = length [60; -1; -130]
  ∧ Forall (λ row, length row = 130%nat
                   ∧ length (filter (λ v : Z, v = 1) row) = 1%nat
                   ∧ Forall (λ v, v = 0 ∨ v = 1) row)
           (map onehot_row [60; 129; 0]%nat)
  ∧ ∀ (t : nat) (tok : Z), [60; -1; -130] !! t = Some tok →
      map onehot_row [60; 129; 0]%nat !! t
      = Some (onehot_row (Z.to_nat (tok mod 130))).
Proof.
  apply (onehot_result_shape [60; -1; -130]).
  - apply (bool_decide_unpack _). vm_compute. exact I.
  - vm_compute. reflexivity.
Defined.

(** X3: encoding a concatenation is encoding the parts and stacking the
    rows; it fails as soon as one part fails. *)
Theorem onehot_app (x y : list Z) :
  note_array_to_onehot (x ++ y)
  = (px ←r note_array_to_onehot x; py ←r note_array_to_onehot y;
     Ok (px ++ py)).
Proof.
  destruct (onehot_dichotomy x) as [[Hx Hxok]|[Hx Hxerr]].
  - rewrite Hxok. simpl.
    destruct (onehot_dichotomy y) as [[Hy Hyok]|[Hy Hyerr]].
    + rewrite Hyok. simpl. rewrite <- !map_app.
      apply onehot_cast_ok. rewrite map_app. by apply Forall_app.
    + rewrite Hyerr. simpl. apply onehot_cast_err.
      rewrite map_app. apply Exists_app. by right.
  - rewrite Hxerr. simpl. apply onehot_cast_err.
    rewrite map_app. apply Exists_app. by left.
Qed.

(** X4: slicing commutes with encoding: the first [n] rows of a PianoRoll
    are the PianoRoll of the first [n] tokens, and the remaining rows that
    of the remaining tokens. *)
Theorem onehot_take_drop (n : nat) (note_array : list Z) (pr : matrix) :
  note_array_to_onehot note_array = Ok pr →
  note_array_to_onehot (take n note_array) = Ok (take n pr)
  ∧ note_array_to_onehot (drop n note_array) = Ok (drop n pr).
Proof.
  intros [Hall ->]%onehot_Ok_inv. split.
  - rewrite <- !fmap_take. apply onehot_cast_ok.
    rewrite fmap_take. by apply Forall_take.
  - rewrite <- !fmap_drop. apply onehot_cast_ok.
    rewrite fmap_drop. by apply Forall_drop.
Qed.

Lemma onehot_take_drop_witness :
  note_array_to_onehot (take 16 x1)
  = Ok (take 16 (map onehot_row (map Z.to_nat x1)))
  ∧ note_array_to_onehot (drop 16 x1)
    = Ok (drop 16 (map onehot_row (map Z.to_nat x1))).
Proof.
  apply (onehot_take_drop 16 x1).
  vm_compute. reflexivity.
Defined.

(** X5: in an array of signed 64-bit tokens that encodes, replacing the
    token at an existing position [k] by a signed 64-bit token [t'] changes
    row [k] of the PianoRoll and no other row when [t'] lies in
    [-130,129], and makes the call fail with [IndexError] when it does
    not. *)
Theorem onehot_insert (k : nat) (t' : Z) (note_array : list Z) (pr : matrix) :
  Forall int64_value note_array →
  int64_value t' →
  (k < length note_array)%nat →
  note_array_to_onehot note_array = Ok pr →
  note_array_to_onehot (<[k := t']> note_array)
  = if decide (indexable t')
    then Ok (<[k := onehot_row (Z.to_nat (t' mod 130))]> pr)
    else Err IndexError.
Proof.
  intros H64 Ht64 Hk [Hall ->]%onehot_Ok_inv.
  rewrite astype_int_all_id in * by done.
  assert (Forall int64_value (<[k := t']> note_array)) as H64'.
  { by apply Forall_insert. }
  case_decide as Ht'.
  - rewrite indexable_onehot by (by apply Forall_insert).
    by rewrite !list_fmap_insert, wrapped_column_mod.
  - apply onehot_cast_err. rewrite astype_int_all_id by done.
    apply Exists_exists. exists t'. split; [|done].
    apply list_elem_of_lookup. exists k. by apply list_lookup_insert_eq.
Qed.

Lemma onehot_insert_witness :
  note_array_to_onehot (<[3%nat := 200]> x1)
  = if decide (indexable 200)
    then Ok (<[3%nat := onehot_row (Z.to_nat (200 mod 130))]>
               (map onehot_row (map Z.to_nat x1)))
    else Err IndexError.
Proof.
  apply (onehot_insert 3 200 x1).
  - apply (bool_decide_unpack _). vm_compute. exact I.
  - apply (bool_decide_unpack _). vm_compute. exact I.
  - vm_compute. lia.
  - vm_compute. reflexivity.
Defined.

Lemma same_column_rows (x : list Z) :
  ∀ y : list Z,
    Forall indexable x → Forall indexable y →
    (map onehot_row (map wrapped_column x)
     = map onehot_row (map wrapped_column y)
     ↔ Forall2 same_column x y).
Proof.
  assert (∀ a b, indexable a → indexable b →
            (onehot_row (wrapped_column a) = onehot_row (wrapped_column b)
             ↔ same_column a b)) as Hrow.
  { intros a b Ha Hb. unfold same_column. split.
    - intros Heq%onehot_row_inj; [|by apply wrapped_column_lt..].
      rewrite !wrapped_column_mod in Heq by done.
      apply Z2Nat.inj in Heq; [done|..]; by apply Z.mod_pos_bound.
    - intros Heq. by rewrite !wrapped_column_mod, Heq. }
  induction x as [|a x IH]; intros [|b y] Hx Hy; simpl.
  - split; [constructor|done].
  - split; [done|by intros ?%Forall2_nil_cons_inv].
  - split; [done|by intros ?%Forall2_cons_nil_inv].
  - apply Forall_cons in Hx as [Ha Hx]. apply Forall_cons in Hy as [Hb Hy].
    split.
    + intros [= Hab Hrest]. constructor; [by apply Hrow|by apply IH].
    + intros [Hab Hrest]%Forall2_cons. f_equal; [by apply Hrow|by apply IH].
Qed.

(** X6: two encodable sequences get the same PianoRoll exactly when they
    have the same length and agree position by position modulo 130, that
    is when each token equals its counterpart or differs from it by 130. *)
Theorem onehot_equal_iff_same_columns (x y : list Z) :
  Forall indexable x → Forall indexable y →
  (note_array_to_onehot x = note_array_to_onehot y
   ↔ Forall2 same_column x y).
Proof.
  intros Hx Hy. rewrite !indexable_onehot by done.
  rewrite <- same_column_rows by done.
  split; [by intros [= ->]|by intros ->].
Qed.

Lemma onehot_equal_iff_same_columns_witness :
  note_array_to_onehot [64; -2; 129] = note_array_to_onehot [-66; 128; -1].
Proof.
  assert (Forall indexable [64; -2; 129]) as Hx.
  { unfold indexable. repeat constructor; lia. }
  assert (Forall indexable [-66; 128; -1]) as Hy.
  { unfold indexable. repeat constructor; lia. }
  apply (proj2 (onehot_equal_iff_same_columns _ _ Hx Hy)).
  repeat constructor.
Defined.

(** X7: on sequences of tokens in [0,129], of any length,
    [note_array_to_onehot] is injective: different melodies never share a
    PianoRoll. *)
Theorem onehot_injective_on_valid (x y : list Z) :
  Forall valid_token x → Forall valid_token y →
  note_array_to_onehot x = note_array_to_onehot y → x = y.
Proof.
  intros Hx Hy Heq.
  assert (∀ l, Forall valid_token l → Forall indexable l) as Hvi.
  { intros l Hl. eapply Forall_impl; [exact Hl|].
    unfold valid_token, indexable. lia. }
  rewrite !indexable_onehot in Heq by auto.
  injection Heq as Heq. apply same_column_rows in Heq; [|auto..].
  apply list_eq_Forall2.
  clear Hvi. revert Hx Hy.
  induction Heq as [|a b x y Hab _ IH]; intros Hx Hy; [constructor|].
  apply Forall_cons in Hx as [Ha Hx]. apply Forall_cons in Hy as [Hb Hy].
  constructor; [|by apply IH].
  unfold same_column, valid_token in *.
  rewrite !Z.mod_small in Hab by lia. done.
Qed.

Lemma onehot_injective_on_valid_witness :
  replicate 16 60 ++ replicate 16 60 = x2.
Proof.
  apply (onehot_injective_on_valid (replicate 16 60 ++ replicate 16 60) x2).
  - unfold valid_token. repeat constructor; lia.
  - unfold valid_token. repeat constructor; lia.
  - vm_compute. reflexivity.
Defined.

